(** * Gemini Weather: the request/response pipeline of [src/index.tsx]

    A shallow embedding of the non-presentational logic of the [App]
    component: the prompt templates, the [fetchWeather] orchestration over the
    five [useState] cells, the content-area selection, the line-by-line
    [renderMarkdown] pass and the rendering of the grounding sources.

    JavaScript strings are sequences of UTF-16 code units; a code unit is a
    value of [N].  What the browser and the SDK provide (number to string
    conversion, the URL parser, the presence of the geolocation API) is
    gathered in the [Platform] record and never inspected. *)

From Stdlib Require Import List NArith Bool String Ascii Lia PrimFloat.
Import ListNotations.

(* ================================================================= *)
(** ** JavaScript strings *)

Module JS.

Definition jsstring := list N.

(** A string literal of the source, one code unit per character. *)
Definition lit (s : string) : jsstring :=
  List.map N_of_ascii (list_ascii_of_string s).

Definition star : N := 42%N.     (* '*' *)
Definition dash : N := 45%N.     (* '-' *)
Definition hash : N := 35%N.     (* '#' *)
Definition newline : N := 10%N.  (* '\n' *)

Fixpoint eqb (a b : jsstring) : bool :=
  match a, b with
  | [], [] => true
  | x :: a', y :: b' => N.eqb x y && eqb a' b'
  | _, _ => false
  end.

(** [s.startsWith(p)] *)
Fixpoint startsWith (p s : jsstring) : bool :=
  match p, s with
  | [], _ => true
  | x :: p', y :: s' => N.eqb x y && startsWith p' s'
  | _ :: _, [] => false
  end.

(** The code units that [String.prototype.trim] removes and that [\s]
    matches: WhiteSpace and LineTerminator of ECMA-262. *)
Definition isWhiteSpace (c : N) : bool :=
  (((9 <=? c) && (c <=? 13)) || (c =? 32) || (c =? 160) || (c =? 5760)
   || ((8192 <=? c) && (c <=? 8202)) || (c =? 8232) || (c =? 8233)
   || (c =? 8239) || (c =? 8287) || (c =? 12288) || (c =? 65279))%N.

Fixpoint dropWhile (f : N -> bool) (s : jsstring) : jsstring :=
  match s with
  | [] => []
  | c :: r => if f c then dropWhile f r else s
  end.

Definition trimStart (s : jsstring) : jsstring := dropWhile isWhiteSpace s.
Definition trimEnd (s : jsstring) : jsstring := rev (dropWhile isWhiteSpace (rev s)).

(** [s.trim()] *)
Definition trim (s : jsstring) : jsstring := trimEnd (trimStart s).

(** [s.split(sep)] for a separator of one code unit: never empty, the
    empty string gives one empty piece. *)
Fixpoint split (sep : N) (s : jsstring) : list jsstring :=
  match s with
  | [] => [[]]
  | c :: r =>
      if N.eqb c sep then [] :: split sep r
      else match split sep r with
           | piece :: pieces => (c :: piece) :: pieces
           | [] => [[c]]
           end
  end.

(** [s.replace(/pat/g, '')] for a literal, non-empty pattern: one scan
    from the left; a match is dropped and the scan resumes after it, so
    matches never overlap.  [skip] counts the code units of the current
    match that are still to be dropped. *)
Fixpoint deleteAll_from (pat : jsstring) (skip : nat) (s : jsstring) : jsstring :=
  match s with
  | [] => []
  | c :: r =>
      match skip with
      | S k => deleteAll_from pat k r
      | O => if startsWith pat s
             then deleteAll_from pat (pred (List.length pat)) r
             else c :: deleteAll_from pat 0 r
      end
  end.

Definition deleteAll (pat s : jsstring) : jsstring := deleteAll_from pat 0 s.

(** JavaScript truthiness of a [string | null | undefined] value. *)
Definition truthy (v : option jsstring) : bool :=
  match v with
  | Some (_ :: _) => true
  | _ => false
  end.

(** [v || fallback] on such a value. *)
Definition orElse (v : option jsstring) (fallback : jsstring) : jsstring :=
  match v with
  | Some (c :: r) => c :: r
  | _ => fallback
  end.

(** [s.includes(sub)] as a proposition. *)
Definition includes (s sub : jsstring) : Prop :=
  exists before after, s = before ++ sub ++ after.

End JS.

Import JS.

(** What the runtime provides. *)
Record Platform := {
  (** ["geolocation" in navigator] *)
  geolocation_in_navigator : bool;
  (** the string a template literal substitutes for a number *)
  Number_toString : float -> jsstring;
  (** [new URL(v).hostname] for a [string | undefined] argument; [None]
      when the constructor throws its TypeError *)
  URL_hostname : option jsstring -> option jsstring
}.

(* ================================================================= *)
(** ** The Simple Markdown Renderer (lines 91-109) *)

(** The four elements [renderMarkdown] returns: the bold [<p>], the [<li>],
    the [<br/>] and the plain [<p>], each with its text child.  The [key]
    of an element is the index of its line. *)
Inductive Block :=
| Heading (content : jsstring)
| ListItem (content : jsstring)
| Blank
| Paragraph (content : jsstring).

Definition bold : jsstring := [star; star].

Definition isBullet (c : N) : bool := N.eqb c star || N.eqb c dash.

(** [line.replace(/^[\*\-]\s*/, '')]: without the [m] and [g] flags the
    pattern can only match at index 0 of [line]. *)
Definition stripBullet (line : jsstring) : jsstring :=
  match line with
  | c :: r => if isBullet c then dropWhile isWhiteSpace r else line
  | [] => []
  end.

(** The body of the [lines.map] callback. *)
Definition renderLine (line : jsstring) : Block :=
  if startsWith bold line || startsWith [hash] line then
    Heading (deleteAll [hash] (deleteAll bold line))
  else if startsWith [star] (trim line) || startsWith [dash] (trim line) then
    ListItem (deleteAll bold (stripBullet line))
  else if eqb (trim line) [] then Blank
  else Paragraph (deleteAll bold line).

Definition renderMarkdown (text : jsstring) : list Block :=
  List.map renderLine (split newline text).

(* ================================================================= *)
(** ** The service response and the caught error *)

Record Web := {
  uri : option jsstring;
  title : option jsstring
}.

Record GroundingChunk := { web : option Web }.

Record GroundingMetadata := { groundingChunks : option (list GroundingChunk) }.

Record Candidate := { groundingMetadata : option GroundingMetadata }.

Record GenerateContentResponse := {
  text : option jsstring;
  candidates : option (list Candidate)
}.

(** The value bound by [catch (err: any)]: an object whose [message] may be
    missing. *)
Record JsError := { message : option jsstring }.

(** How the [try] block of [fetchWeather] ends: it runs to its last line
    with the response of [generateContent], or something in it throws. *)
Inductive Outcome :=
| Fulfilled (response : GenerateContentResponse)
| Rejected (err : JsError).

(** [response.candidates?.[0]?.groundingMetadata?.groundingChunks || []] *)
Definition chunksOf (response : GenerateContentResponse) : list GroundingChunk :=
  match candidates response with
  | Some (candidate :: _) =>
      match groundingMetadata candidate with
      | Some metadata =>
          match groundingChunks metadata with
          | Some chunks => chunks
          | None => []
          end
      | None => []
      end
  | _ => []
  end.

(* ================================================================= *)
(** ** The component state (lines 24-28) *)

Record AppState := {
  query : jsstring;
  weatherData : option jsstring;
  sources : list GroundingChunk;
  loading : bool;
  error : option jsstring
}.

Definition initialState : AppState :=
  {| query := []; weatherData := None; sources := []; loading := false; error := None |}.

Definition setQuery (v : jsstring) (s : AppState) : AppState :=
  {| query := v; weatherData := weatherData s; sources := sources s;
     loading := loading s; error := error s |}.

Definition setWeatherData (v : option jsstring) (s : AppState) : AppState :=
  {| query := query s; weatherData := v; sources := sources s;
     loading := loading s; error := error s |}.

Definition setSources (v : list GroundingChunk) (s : AppState) : AppState :=
  {| query := query s; weatherData := weatherData s; sources := v;
     loading := loading s; error := error s |}.

Definition setLoading (v : bool) (s : AppState) : AppState :=
  {| query := query s; weatherData := weatherData s; sources := sources s;
     loading := v; error := error s |}.

Definition setError (v : option jsstring) (s : AppState) : AppState :=
  {| query := query s; weatherData := weatherData s; sources := sources s;
     loading := loading s; error := v |}.

(* ================================================================= *)
(** ** Prompts (lines 68 and 77) *)

Definition promptTail : jsstring :=
  lit "? Please provide a summary including temperature, sky condition, humidity, and wind speed. Format it nicely with markdown.".

Definition placePrompt (place : jsstring) : jsstring :=
  lit "What is the current weather in " ++ place ++ promptTail.

Definition coordsPrompt (P : Platform) (latitude longitude : float) : jsstring :=
  lit "What is the current weather at latitude " ++ Number_toString P latitude
  ++ lit ", longitude " ++ Number_toString P longitude ++ promptTail.

(* ================================================================= *)
(** ** fetchWeather (lines 33-63) *)

Definition placeholderText : jsstring := lit "No weather data found.".

Definition fallbackMessage : jsstring :=
  lit "Failed to fetch weather data. Please try again.".

(** Lines 34-37: the four updates made before the [try] block. *)
Definition fetchWeather_begin (s : AppState) : AppState :=
  setSources [] (setWeatherData None (setError None (setLoading true s))).

(** Lines 52-62: the end of the [try] block or the [catch] block, then
    [finally]. *)
Definition fetchWeather_settle (o : Outcome) (s : AppState) : AppState :=
  setLoading false
    match o with
    | Fulfilled response =>
        setSources (chunksOf response)
          (setWeatherData (Some (orElse (text response) placeholderText)) s)
    | Rejected err =>
        setError (Some (orElse (message err) fallbackMessage)) s
    end.

(** One whole call, from the first line to the end of [finally]. *)
Definition fetchWeather (o : Outcome) (s : AppState) : AppState :=
  fetchWeather_settle o (fetchWeather_begin s).

(* ================================================================= *)
(** ** The handlers and the asynchronous work they leave behind *)

(** What the event loop still owes the component: the callback of
    [getCurrentPosition], or the continuation of a [fetchWeather] call
    suspended at its [await]. *)
Inductive Await :=
| AwaitPosition
| AwaitGeneration (prompt : jsstring).

Definition Await_eqb (a b : Await) : bool :=
  match a, b with
  | AwaitPosition, AwaitPosition => true
  | AwaitGeneration p, AwaitGeneration q => eqb p q
  | _, _ => false
  end.

(** Take the first occurrence of [a] out of the work in flight. *)
Fixpoint takeAwait (a : Await) (l : list Await) : option (list Await) :=
  match l with
  | [] => None
  | b :: r =>
      if Await_eqb a b then Some r
      else match takeAwait a r with
           | Some r' => Some (b :: r')
           | None => None
           end
  end.

Record Session := {
  ui : AppState;
  inflight : list Await
}.

Definition initialSession : Session := {| ui := initialState; inflight := [] |}.

(** A call of [fetchWeather prompt] up to its [await]. *)
Definition callFetchWeather (prompt : jsstring) (w : Session) : Session :=
  {| ui := fetchWeather_begin (ui w);
     inflight := inflight w ++ [AwaitGeneration prompt] |}.

(** Lines 65-69. *)
Definition handleSearch (w : Session) : Session :=
  if eqb (trim (query (ui w))) [] then w
  else callFetchWeather (placePrompt (query (ui w))) w.

(** Lines 71-88, up to the return of [getCurrentPosition]. *)
Definition handleLocationClick (P : Platform) (w : Session) : Session :=
  if geolocation_in_navigator P then
    {| ui := setLoading true (ui w); inflight := inflight w ++ [AwaitPosition] |}
  else
    {| ui := setError (Some (lit "Geolocation is not supported by your browser.")) (ui w);
       inflight := inflight w |}.

(** Lines 75-79: the success callback. *)
Definition positionSuccess (P : Platform) (latitude longitude : float) (w : Session) : Session :=
  let w' := callFetchWeather (coordsPrompt P latitude longitude) w in
  {| ui := setQuery (lit "Current Location") (ui w'); inflight := inflight w' |}.

(** Lines 80-83: the error callback. *)
Definition positionError (w : Session) : Session :=
  {| ui := setError (Some (lit "Unable to retrieve location. Please check permissions."))
             (setLoading false (ui w));
     inflight := inflight w |}.

(** What can happen to the mounted component.  Each event runs one
    synchronous stretch of code; React 18 ([createRoot]) renders once after
    it, with all its updates applied. *)
Inductive Event :=
| Change (value : jsstring)
| SubmitForm
| ClickLocation
| PositionFound (latitude longitude : float)
| PositionFailed
| GenerationSettled (prompt : jsstring) (o : Outcome).

(** Both buttons carry [disabled={loading}] (lines 138 and 146), and a form
    whose submit button is disabled is not submitted: the two user actions
    need [loading = false].  A callback runs only if its work is in flight.
    [None]: the event cannot happen in [w]. *)
Definition dispatch (P : Platform) (ev : Event) (w : Session) : option Session :=
  match ev with
  | Change value => Some {| ui := setQuery value (ui w); inflight := inflight w |}
  | SubmitForm => if loading (ui w) then None else Some (handleSearch w)
  | ClickLocation => if loading (ui w) then None else Some (handleLocationClick P w)
  | PositionFound latitude longitude =>
      match takeAwait AwaitPosition (inflight w) with
      | Some rest => Some (positionSuccess P latitude longitude {| ui := ui w; inflight := rest |})
      | None => None
      end
  | PositionFailed =>
      match takeAwait AwaitPosition (inflight w) with
      | Some rest => Some (positionError {| ui := ui w; inflight := rest |})
      | None => None
      end
  | GenerationSettled prompt o =>
      match takeAwait (AwaitGeneration prompt) (inflight w) with
      | Some rest => Some {| ui := fetchWeather_settle o (ui w); inflight := rest |}
      | None => None
      end
  end.

Inductive reachable (P : Platform) : Session -> Prop :=
| reachable_initial : reachable P initialSession
| reachable_dispatch ev w w' :
    reachable P w -> dispatch P ev w = Some w' -> reachable P w'.

(** Run a script of events from a session. *)
Fixpoint run (P : Platform) (script : list Event) (w : Session) : option Session :=
  match script with
  | [] => Some w
  | ev :: rest =>
      match dispatch P ev w with
      | Some w' => run P rest w'
      | None => None
      end
  end.

(* ================================================================= *)
(** ** The content area (lines 157-202) *)

(** Which of the four branches of the conditional chain is rendered, with
    the state it shows. *)
Inductive Status :=
| Loading
| Error (msg : jsstring)
| Success (answer : jsstring) (chunks : list GroundingChunk)
| Idle.

Definition status (s : AppState) : Status :=
  if loading s then Loading
  else match error s with
       | Some (c :: r) => Error (c :: r)
       | _ =>
           match weatherData s with
           | Some (c :: r) => Success (c :: r) (sources s)
           | _ => Idle
           end
       end.

(* ================================================================= *)
(** ** Grounding sources (lines 177-192) *)

(** The [<a>] element of one source: its [href] and its text child. *)
Record Anchor := {
  href : option jsstring;
  label : jsstring
}.

(** [chunk.web.title || new URL(chunk.web.uri).hostname]; the URL is only
    built when the title is falsy.  [None]: the expression throws. *)
Definition displayTitle (P : Platform) (w : Web) : option jsstring :=
  if truthy (title w) then title w else URL_hostname P (uri w).

(** The callback of [sources.map]: [Some None] is the [null] it returns for
    a chunk without [web]; [None] means it throws. *)
Definition renderSource (P : Platform) (chunk : GroundingChunk) : option (option Anchor) :=
  match web chunk with
  | Some w =>
      match displayTitle P w with
      | Some t => Some (Some {| href := uri w; label := t |})
      | None => None
      end
  | None => Some None
  end.

(** [sources.map(...)] as React shows it: the [null] entries render
    nothing, so the anchors that remain are listed in order. *)
Fixpoint renderSources (P : Platform) (chunks : list GroundingChunk) : option (list Anchor) :=
  match chunks with
  | [] => Some []
  | chunk :: rest =>
      match renderSource P chunk with
      | None => None
      | Some element =>
          match renderSources P rest with
          | None => None
          | Some anchors =>
              Some match element with
                   | Some a => a :: anchors
                   | None => anchors
                   end
          end
      end
  end.

(* ================================================================= *)
(** ** Two readings of the specification, for comparison with the code *)

(** The web records of the chunks that have one, in input order. *)
Fixpoint websOf (chunks : list GroundingChunk) : list Web :=
  match chunks with
  | [] => []
  | chunk :: rest =>
      match web chunk with
      | Some w => w :: websOf rest
      | None => websOf rest
      end
  end.

(** The display title as the specification words it: "the chunk's title
    when present, otherwise the host component of the chunk's URL". *)
Definition spec_displayTitle (P : Platform) (w : Web) : option jsstring :=
  match title w with
  | Some t => Some t
  | None => URL_hostname P (uri w)
  end.

(** The list item as the specification words it: the line is trimmed of
    leading whitespace, then loses its bullet marker and its emphasis
    markers. *)
Definition spec_listItemContent (line : jsstring) : jsstring :=
  deleteAll bold (stripBullet (trimStart line)).

(* ================================================================= *)
(** ** Predicates used in the statements *)




(** The anchors are those of the web records [webs], in order, under a
    given rule for the display title. *)
Definition anchorsOf (titleOf : Web -> option jsstring)
    (webs : list Web) (anchors : list Anchor) : Prop :=
  Forall2 (fun w a => href a = uri w /\ titleOf w = Some (label a)) webs anchors.

(** The shape of a session between two events: nothing in flight and not
    loading; a position lookup in flight; or one generation call in flight,
    with what [fetchWeather_begin] cleared still clear. *)
Definition settled (w : Session) : Prop :=
  inflight w = [] /\ loading (ui w) = false.

Definition locating (w : Session) : Prop :=
  inflight w = [AwaitPosition] /\ loading (ui w) = true.

Definition generating (w : Session) : Prop :=
  exists prompt,
    inflight w = [AwaitGeneration prompt] /\ loading (ui w) = true
    /\ error (ui w) = None /\ weatherData (ui w) = None /\ sources (ui w) = [].

Definition coherent (w : Session) : Prop :=
  settled w \/ locating w \/ generating w.

(** A browser with the geolocation API, for the concrete runs below; it
    knows how two numbers print and the host of one URL. *)
Definition demoPlatform : Platform :=
  {| geolocation_in_navigator := true;
     Number_toString := fun x =>
       if PrimFloat.eqb x 48.5%float then lit "48.5"
       else if PrimFloat.eqb x (-2.25)%float then lit "-2.25"
       else lit "0";
     URL_hostname := fun v =>
       match v with
       | Some u => if eqb u (lit "https://a.com") then Some (lit "a.com") else None
       | None => None
       end |}.

(** The same browser without the geolocation API. *)
Definition demoPlatformNoGeolocation : Platform :=
  {| geolocation_in_navigator := false;
     Number_toString := Number_toString demoPlatform;
     URL_hostname := URL_hostname demoPlatform |}.

(** The session a script of events leads to from the initial one. *)
Definition after (P : Platform) (script : list Event) : Session :=
  match run P script initialSession with
  | Some w => w
  | None => initialSession
  end.

(** Typing "Paris" and submitting; the answer "Sunny" without sources; a
    failure without message. *)
Definition demoSearch : list Event := [Change (lit "Paris"); SubmitForm].

Definition demoAnswer : Event :=
  GenerationSettled (placePrompt (lit "Paris"))
    (Fulfilled {| text := Some (lit "Sunny"); candidates := None |}).

Definition demoFailure : Event :=
  GenerationSettled (placePrompt (lit "Paris")) (Rejected {| message := None |}).

(** A citation with an empty title, one without [web], one without title. *)
Definition demoChunks : list GroundingChunk :=
  [ {| web := Some {| uri := Some (lit "https://a.com"); title := Some [] |} |};
    {| web := None |};
    {| web := Some {| uri := Some (lit "https://a.com"); title := None |} |} ].

(* ================================================================= *)
(** ** What the content area renders (lines 157-202) *)

(** The children of the content area: the spinner, the error box with its
    message, the answer with its blocks and, under them, the "Sources"
    section when there is one, or the "Enter a location to start"
    placeholder. *)
Inductive Content :=
| Spinner
| ErrorBox (msg : jsstring)
| Answer (blocks : list Block) (links : option (list Anchor))
| Placeholder.

(** The conditional chain with what each branch evaluates.  The answer
    branch calls [renderMarkdown(weatherData)] and, when
    [sources.length > 0], maps the sources to their anchors.  [None]: the
    render throws. *)
Definition contentArea (P : Platform) (s : AppState) : option Content :=
  match status s with
  | Loading => Some Spinner
  | Error msg => Some (ErrorBox msg)
  | Success answer chunks =>
      match chunks with
      | [] => Some (Answer (renderMarkdown answer) None)
      | _ :: _ =>
          match renderSources P chunks with
          | Some anchors => Some (Answer (renderMarkdown answer) (Some anchors))
          | None => None
          end
      end
  | Idle => Some Placeholder
  end.

(** The text child of a block; a [<br/>] has none. *)
Definition blockContent (b : Block) : jsstring :=
  match b with
  | Heading content | ListItem content | Paragraph content => content
  | Blank => []
  end.

(** What the setters keep true of the stored values: a stored message or
    answer is never the empty string, and sources are stored only with an
    answer. *)
Definition wellStored (s : AppState) : Prop :=
  error s <> Some []
  /\ weatherData s <> Some []
  /\ (weatherData s = None -> sources s = []).

(** Every code unit of [s] is whitespace. *)
Definition allWhiteSpace (s : jsstring) : Prop :=
  Forall (fun c => isWhiteSpace c = true) s.

(* ================================================================= *)
(** ** The notations in which a number is printed *)

Definition isDigit (c : N) : bool := ((48 <=? c) && (c <=? 57))%N.

(** One decimal digit or more. *)
Definition isDigits (s : jsstring) : bool :=
  match s with
  | [] => false
  | _ :: _ => forallb isDigit s
  end.

(** [s] without its leading minus sign, if it has one. *)
Definition unsignedPart (s : jsstring) : jsstring :=
  match s with
  | c :: r => if N.eqb c dash then r else s
  | [] => []
  end.

(** Plain decimal notation: an optional minus sign, digits and, if there
    is a fraction, a point and digits, as in "48.5" or "-2". *)
Definition isDecimalForm (s : jsstring) : bool :=
  match split 46%N (unsignedPart s) with
  | [whole] => isDigits whole
  | [whole; fraction] => isDigits whole && isDigits fraction
  | _ => false
  end.

(** The exponent of the scientific notation: a sign and digits. *)
Definition isExponent (s : jsstring) : bool :=
  match s with
  | c :: r => (N.eqb c 43%N || N.eqb c dash) && isDigits r
  | [] => false
  end.

(** What the number-to-string conversion of ECMAScript prints for a finite
    number: decimal notation, followed for the magnitudes below 1e-6 and
    from 1e21 on by [e] and an exponent, as in "5.960464477539063e-8". *)
Definition isNumberForm (s : jsstring) : bool :=
  match split 101%N s with
  | [mantissa] => isDecimalForm mantissa
  | [mantissa; exponent] => isDecimalForm mantissa && isExponent exponent
  | _ => false
  end.

(** The platform prints every finite number in one of these notations. *)
Definition printsNumbers (P : Platform) : Prop :=
  forall x, is_finite x = true -> isNumberForm (Number_toString P x) = true.

(** 2^-24, a latitude of about 0.00000006 degrees. *)
Definition tinyLatitude : float := 0x1p-24%float.

(** The demonstration browser, knowing also how ECMAScript prints 2^-24. *)
Definition demoPlatformTiny : Platform :=
  {| geolocation_in_navigator := true;
     Number_toString := fun x =>
       if PrimFloat.eqb x tinyLatitude then lit "5.960464477539063e-8"
       else Number_toString demoPlatform x;
     URL_hostname := URL_hostname demoPlatform |}.

(** The answer "Sunny" with the citations of [demoChunks]. *)
Definition demoCitedAnswer : Event :=
  GenerationSettled (placePrompt (lit "Paris"))
    (Fulfilled {| text := Some (lit "Sunny");
                  candidates := Some [ {| groundingMetadata :=
                    Some {| groundingChunks := Some demoChunks |} |} ] |}).

(* ================================================================= *)
(** * Properties *)

(** ** Facts about the string primitives *)

Section StringFacts.

(** Induction that peels one or two code units, as the [**] scan does. *)
Lemma jsstring_pair_ind (Q : list N -> Prop) :
  Q [] ->
  (forall c, Q [c]) ->
  (forall a b r, Q r -> Q (b :: r) -> Q (a :: b :: r)) ->
  forall s : list N, Q s.
Proof.
  intros Hnil Hone Hstep.
  assert (Hboth : forall s, Q s /\ forall c, Q (c :: s)).
  { induction s as [|b r [IHr IHc]]; split; auto. }
  intro s. apply Hboth.
Qed.

Lemma eqb_eq a b : eqb a b = true <-> a = b.
Proof.
  revert b. induction a as [|x a IH]; intros [|y b]; simpl; split;
    try congruence; try reflexivity.
  - intro H. apply andb_true_iff in H as [Hx Hr].
    apply N.eqb_eq in Hx. apply IH in Hr. congruence.
  - intro H. injection H as -> ->. rewrite N.eqb_refl. simpl. now apply IH.
Qed.

Lemma startsWith_bold c r :
  startsWith bold (c :: r) = N.eqb star c && startsWith [star] r.
Proof. reflexivity. Qed.

Lemma startsWith_one x c r : startsWith [x] (c :: r) = N.eqb x c.
Proof. simpl. apply andb_true_r. Qed.


Lemma deleteAll_bold_pair r :
  deleteAll bold (star :: star :: r) = deleteAll bold r.
Proof. reflexivity. Qed.

Lemma deleteAll_bold_keep c r :
  startsWith bold (c :: r) = false ->
  deleteAll bold (c :: r) = c :: deleteAll bold r.
Proof.
  intro H. unfold deleteAll. cbn [deleteAll_from]. now rewrite H.
Qed.

Lemma deleteAll_bold_other c r :
  c <> star -> deleteAll bold (c :: r) = c :: deleteAll bold r.
Proof.
  intro H. apply deleteAll_bold_keep. rewrite startsWith_bold.
  destruct (N.eqb_spec star c); [congruence | reflexivity].
Qed.

Lemma deleteAll_bold_lone r :
  startsWith [star] r = false ->
  deleteAll bold (star :: r) = star :: deleteAll bold r.
Proof.
  intro H. apply deleteAll_bold_keep. rewrite startsWith_bold, H.
  apply andb_false_r.
Qed.






Lemma includes_bold_cons c r :
  includes (c :: r) bold -> startsWith bold (c :: r) = true \/ includes r bold.
Proof.
  intros [[|x before] [after H]].
  - left. simpl in H. rewrite H. reflexivity.
  - right. injection H as _ H. now exists before, after.
Qed.

Lemma includes_nil_bold : ~ includes [] bold.
Proof. intros [[|x before] [after H]]; discriminate H. Qed.

(** After the scan no [**] is left. *)
Lemma deleteAll_bold_clean s : ~ includes (deleteAll bold s) bold.
Proof.
  induction s as [|c|a b r IHr IHb] using jsstring_pair_ind.
  - apply includes_nil_bold.
  - assert (H : deleteAll bold [c] = [c]).
    { destruct (N.eq_dec c star) as [->|Hc];
        [now rewrite deleteAll_bold_lone | now rewrite deleteAll_bold_other]. }
    rewrite H. intro Hin. apply includes_bold_cons in Hin as [Hsw|Hin].
    + rewrite startsWith_bold in Hsw. now rewrite andb_false_r in Hsw.
    + now apply includes_nil_bold.
  - destruct (startsWith bold (a :: b :: r)) eqn:Hsw.
    + rewrite startsWith_bold, startsWith_one in Hsw.
      apply andb_true_iff in Hsw as [Ha Hb].
      apply N.eqb_eq in Ha, Hb. subst a b.
      now rewrite deleteAll_bold_pair.
    + rewrite (deleteAll_bold_keep _ _ Hsw).
      intro Hin. apply includes_bold_cons in Hin as [Hsw'|Hin]; [|now apply IHb].
      rewrite startsWith_bold in Hsw, Hsw'.
      apply andb_true_iff in Hsw' as [Ha Hb'].
      rewrite Ha, andb_true_l, startsWith_one in Hsw.
      assert (Hb : b <> star).
      { intros ->. now rewrite N.eqb_refl in Hsw. }
      rewrite (deleteAll_bold_other _ _ Hb), startsWith_one in Hb'.
      congruence.
Qed.







Lemma includes_intro before sub after : includes (before ++ sub ++ after) sub.
Proof. now exists before, after. Qed.

Lemma includes_app_r s t sub : includes t sub -> includes (s ++ t) sub.
Proof.
  intros [b [a ->]]. exists (s ++ b), a. now rewrite <- app_assoc.
Qed.

End StringFacts.

(* ================================================================= *)
(** ** The Text Block Renderer *)

Section Renderer.

Lemma renderMarkdown_length text :
  List.length (renderMarkdown text) = List.length (split newline text).
Proof. unfold renderMarkdown. apply length_map. Qed.

(** A line that starts with its bullet loses it, as the specification
    says of every list item. *)
Lemma listItem_flush_left line content :
  trimStart line = line ->
  renderLine line = ListItem content ->
  content = spec_listItemContent line.
Proof.
  intros Hflush. unfold renderLine, spec_listItemContent. rewrite Hflush.
  destruct (startsWith bold line || startsWith [hash] line); [discriminate|].
  destruct (startsWith [star] (trim line) || startsWith [dash] (trim line)).
  - now intros [= <-].
  - destruct (eqb (trim line) []); discriminate.
Qed.

(** C7: on the text of the specification's example, four lines separated
    by newlines, [renderMarkdown] returns a heading "Temperature", a list
    item "Sunny", a blank and a paragraph "Feels nice": one block for each
    of the four lines. *)
Theorem C7_example_blocks :
  let text := lit "**Temperature**" ++ [newline] ++ lit "- Sunny"
              ++ [newline; newline] ++ lit "Feels nice" in
  split newline text
  = [lit "**Temperature**"; lit "- Sunny"; []; lit "Feels nice"]
  /\ renderMarkdown text
     = [Heading (lit "Temperature"); ListItem (lit "Sunny"); Blank;
        Paragraph (lit "Feels nice")].
Proof. split; vm_compute; reflexivity. Qed.

(** C2, at the input where the code departs from it: the line
    "  - Sunny" starts with neither [**] nor [#] and, trimmed, starts
    with the bullet [-], so it is rendered as a list item; but the
    pattern that removes the bullet is anchored at index 0 of the
    untrimmed line, where it finds a space, and the item keeps
    "  - Sunny" whole instead of the "Sunny" the specification asks
    for. *)
Theorem C2_indented_bullet_kept :
  let line := lit "  - Sunny" in
  startsWith bold line = false
  /\ startsWith [hash] line = false
  /\ startsWith [dash] (trimStart line) = true
  /\ renderLine line = ListItem (lit "  - Sunny")
  /\ spec_listItemContent line = lit "Sunny"
  /\ renderLine line <> ListItem (spec_listItemContent line).
Proof. repeat split; try (vm_compute; reflexivity). vm_compute. discriminate. Qed.


End Renderer.

(* ================================================================= *)
(** ** The Query Orchestrator *)

Section Orchestrator.

Variable P : Platform.

Lemma orElse_nonempty v fallback : fallback <> [] -> orElse v fallback <> [].
Proof. destruct v as [[|c r]|]; simpl; auto; discriminate. Qed.

Lemma status_loading s : loading s = true -> status s = Loading.
Proof. unfold status. now intros ->. Qed.

Lemma run_app script1 script2 w w' w'' :
  run P script1 w = Some w' -> run P script2 w' = Some w'' ->
  run P (script1 ++ script2) w = Some w''.
Proof.
  revert w. induction script1 as [|ev rest IH]; simpl; intros w.
  - now intros [= ->].
  - destruct (dispatch P ev w) as [w1|]; [apply IH | discriminate].
Qed.

Lemma run_reachable script w w' :
  reachable P w -> run P script w = Some w' -> reachable P w'.
Proof.
  revert w. induction script as [|ev rest IH]; simpl; intros w Hw.
  - now intros [= <-].
  - destruct (dispatch P ev w) as [w1|] eqn:Hstep; [|discriminate].
    apply IH. now apply reachable_dispatch with ev w.
Qed.

Lemma reachable_run w :
  reachable P w -> exists script, run P script initialSession = Some w.
Proof.
  induction 1 as [|ev w w' _ [script Hrun] Hstep].
  - now exists [].
  - exists (script ++ [ev]). apply run_app with w; [assumption|].
    simpl. now rewrite Hstep.
Qed.

Ltac session_done :=
  unfold coherent, settled, locating, generating; simpl; auto;
  try (right; right; eexists; simpl; auto 10; fail).

(** Every event takes a coherent session to a coherent session. *)
Lemma coherent_dispatch ev w w' :
  coherent w -> dispatch P ev w = Some w' -> coherent w'.
Proof.
  destruct w as [s fl]. unfold coherent at 1, settled, locating, generating.
  simpl.
  intros [[-> Hload] | [[-> Hload] | [prompt [-> [Hload [He [Hw Hs]]]]]]];
    destruct ev as [value| | |latitude longitude| |prompt' o];
    simpl; rewrite ?Hload; try discriminate.
  - intros [= <-]. session_done.
  - unfold handleSearch. simpl.
    destruct (eqb (trim (query s)) []); intros [= <-]; session_done.
  - unfold handleLocationClick.
    destruct (geolocation_in_navigator P); intros [= <-]; session_done.
  - intros [= <-]. session_done.
  - intros [= <-]. session_done.
  - intros [= <-]. session_done.
  - intros [= <-]. session_done.
  - destruct (eqb prompt' prompt); [|discriminate].
    intros [= <-]. session_done.
Qed.

Lemma reachable_coherent w : reachable P w -> coherent w.
Proof.
  induction 1 as [|ev w w' _ IH Hstep].
  - left. now split.
  - now apply coherent_dispatch with ev w.
Qed.

End Orchestrator.

(* ================================================================= *)
(** ** Sessions: what the claims say of the state machine *)

Lemma status_Loading_iff s : status s = Loading <-> loading s = true.
Proof.
  unfold status. destruct (loading s); [now split|].
  split; [|discriminate].
  destruct (error s) as [[|c r]|]; try discriminate;
    destruct (weatherData s) as [[|c' r']|]; discriminate.
Qed.

Lemma status_not_loading s :
  (exists msg, status s = Error msg)
  \/ (exists answer chunks, status s = Success answer chunks) ->
  loading s = false.
Proof.
  destruct (loading s) eqn:Hl; [|reflexivity].
  rewrite (status_loading s Hl). intros [[msg H] | [answer [chunks H]]]; discriminate.
Qed.

Lemma after_reachable P script w :
  run P script initialSession = Some w -> reachable P (after P script).
Proof.
  intro Hrun. unfold after. rewrite Hrun.
  apply run_reachable with script initialSession; [constructor | exact Hrun].
Qed.

(** C3, as stated, fails: after an answer has been shown, a click on the
    location button of a browser with geolocation sets the loading flag
    and nothing else, so while the position is looked up the flag is set
    and the answer text is still stored. *)
Lemma C3_locating_keeps_answer :
  let w := after demoPlatform (demoSearch ++ [demoAnswer; ClickLocation]) in
  reachable demoPlatform w
  /\ loading (ui w) = true
  /\ weatherData (ui w) = Some (lit "Sunny")
  /\ ~ (loading (ui w) = true -> error (ui w) = None /\ weatherData (ui w) = None).
Proof.
  split; [|split; [|split]].
  - eapply after_reachable. vm_compute. reflexivity.
  - vm_compute. reflexivity.
  - vm_compute. reflexivity.
  - intro H. assert (Hl : loading (ui (after demoPlatform
        (demoSearch ++ [demoAnswer; ClickLocation]))) = true)
      by (vm_compute; reflexivity).
    destruct (H Hl) as [_ Hw]. vm_compute in Hw. discriminate Hw.
Qed.

(** C3, amended: in every reachable session the content area shows the
    loading branch exactly when the loading flag is set, which is exactly
    when some work is in flight, so it never shows an error or an answer
    with it; and whenever a generation call is in flight the loading flag
    is set, the error message is null and the answer text is null. *)
Theorem C3_loading_excludes_error_and_success P w :
  reachable P w ->
  (status (ui w) = Loading <-> loading (ui w) = true)
  /\ (loading (ui w) = true <-> inflight w <> [])
  /\ (forall prompt, In (AwaitGeneration prompt) (inflight w) ->
        loading (ui w) = true /\ error (ui w) = None
        /\ weatherData (ui w) = None /\ sources (ui w) = []).
Proof.
  intro Hreach. split; [apply status_Loading_iff|].
  destruct (reachable_coherent P w Hreach)
    as [[Hfl Hl] | [[Hfl Hl] | [prompt [Hfl [Hl [He [Hw Hs]]]]]]];
    rewrite Hfl, Hl; split.
  - split; [discriminate | congruence].
  - intros prompt [].
  - split; [discriminate | reflexivity].
  - intros prompt [Heq | []]. discriminate Heq.
  - split; [discriminate | reflexivity].
  - intros prompt' _. rewrite <- Hl. auto.
Qed.

Lemma C3_loading_excludes_error_and_success_witness :
  let w := after demoPlatform demoSearch in
  reachable demoPlatform w
  /\ loading (ui w) = true /\ error (ui w) = None /\ weatherData (ui w) = None.
Proof.
  assert (Hreach : reachable demoPlatform (after demoPlatform demoSearch)).
  { eapply after_reachable. vm_compute. reflexivity. }
  split; [exact Hreach|].
  destruct (C3_loading_excludes_error_and_success demoPlatform _ Hreach)
    as [_ [_ Hgen]].
  destruct (Hgen (placePrompt (lit "Paris"))) as [Hl [He [Hw _]]].
  - vm_compute. left. reflexivity.
  - split; [exact Hl | split; [exact He | exact Hw]].
Defined.

Lemma takeAwait_snoc a l : exists rest, takeAwait a (l ++ [a]) = Some rest.
Proof.
  assert (Hrefl : Await_eqb a a = true).
  { destruct a; simpl; [reflexivity | now apply eqb_eq]. }
  induction l as [|b l [rest IH]]; simpl.
  - rewrite Hrefl. now exists [].
  - destruct (Await_eqb a b); [now exists (l ++ [a])|].
    rewrite IH. now exists (b :: rest).
Qed.

(** C4, as stated, fails for the query started with the location button:
    from a shown answer with its sources, the click gives the loading
    branch at once while the answer text and the sources stay stored. *)
Lemma C4_location_click_keeps_answer :
  let w := after demoPlatform (demoSearch ++ [demoCitedAnswer]) in
  status (ui w) = Success (lit "Sunny") demoChunks
  /\ exists w',
       dispatch demoPlatform ClickLocation w = Some w'
       /\ status (ui w') = Loading
       /\ weatherData (ui w') = Some (lit "Sunny")
       /\ sources (ui w') = demoChunks
       /\ ~ (weatherData (ui w') = None /\ sources (ui w') = []).
Proof.
  split; [vm_compute; reflexivity|].
  eexists. split; [vm_compute; reflexivity|].
  split; [reflexivity | split; [reflexivity | split; [reflexivity|]]].
  intros [H _]. discriminate H.
Qed.

(** C4, amended: when the content area shows an error or an answer, a
    call of [fetchWeather] leaves, at its [await], a state that shows the
    loading branch and whose answer text, sources and error are cleared,
    with the generation call still in flight; submitting a non-blank query
    is such a call.  A click on the location button shows the loading
    branch at once and keeps the answer text and the sources stored until
    the position arrives: the position callback is then such a call. *)
Theorem C4_restart_clears_synchronously P w :
  (exists msg, status (ui w) = Error msg)
  \/ (exists answer chunks, status (ui w) = Success answer chunks) ->
  (forall prompt,
      let w' := callFetchWeather prompt w in
      status (ui w') = Loading
      /\ weatherData (ui w') = None /\ sources (ui w') = [] /\ error (ui w') = None
      /\ inflight w' = inflight w ++ [AwaitGeneration prompt])
  /\ (eqb (trim (query (ui w))) [] = false ->
      dispatch P SubmitForm w
      = Some (callFetchWeather (placePrompt (query (ui w))) w))
  /\ (geolocation_in_navigator P = true ->
      exists w1,
        dispatch P ClickLocation w = Some w1
        /\ status (ui w1) = Loading
        /\ weatherData (ui w1) = weatherData (ui w)
        /\ sources (ui w1) = sources (ui w)
        /\ forall latitude longitude,
             exists w2,
               dispatch P (PositionFound latitude longitude) w1 = Some w2
               /\ status (ui w2) = Loading
               /\ weatherData (ui w2) = None /\ sources (ui w2) = []
               /\ error (ui w2) = None
               /\ In (AwaitGeneration (coordsPrompt P latitude longitude))
                     (inflight w2)).
Proof.
  intro Hshown. split; [|split].
  - intro prompt. simpl. repeat split; reflexivity.
  - intro Hquery. simpl. rewrite (status_not_loading _ Hshown).
    unfold handleSearch. now rewrite Hquery.
  - intro Hgeo. eexists. split.
    + simpl. rewrite (status_not_loading _ Hshown).
      unfold handleLocationClick. rewrite Hgeo. reflexivity.
    + split; [reflexivity | split; [reflexivity | split; [reflexivity|]]].
      intros latitude longitude.
      destruct (takeAwait_snoc AwaitPosition (inflight w)) as [rest Htake].
      eexists. split.
      * simpl. rewrite Htake. reflexivity.
      * split; [reflexivity | split; [reflexivity | split; [reflexivity|]]].
        split; [reflexivity|]. simpl. apply in_or_app. right. now left.
Qed.

Lemma C4_restart_clears_synchronously_witness :
  let w := after demoPlatform (demoSearch ++ [demoAnswer]) in
  status (ui w) = Success (lit "Sunny") []
  /\ (exists w', dispatch demoPlatform SubmitForm w = Some w'
                 /\ status (ui w') = Loading
                 /\ weatherData (ui w') = None /\ sources (ui w') = [])
  /\ (exists w1, dispatch demoPlatform ClickLocation w = Some w1
                 /\ status (ui w1) = Loading
                 /\ weatherData (ui w1) = weatherData (ui w)).
Proof.
  assert (Hshown : status (ui (after demoPlatform (demoSearch ++ [demoAnswer])))
                   = Success (lit "Sunny") []) by (vm_compute; reflexivity).
  split; [exact Hshown|].
  destruct (C4_restart_clears_synchronously demoPlatform
              (after demoPlatform (demoSearch ++ [demoAnswer])))
    as [Hcall [Hsubmit Hclick]].
  - right. exists (lit "Sunny"), []. exact Hshown.
  - split.
    + eexists. split; [apply Hsubmit; vm_compute; reflexivity|].
      destruct (Hcall (placePrompt (lit "Paris"))) as [Hs [Hw [Hc _]]].
      split; [exact Hs | split; [exact Hw | exact Hc]].
    + destruct (Hclick eq_refl) as [w1 [Hstep [Hs [Hw _]]]].
      exists w1. split; [exact Hstep | split; [exact Hs | exact Hw]].
Defined.

(** C5: when the [try] block of [fetchWeather] throws, the state left
    after [finally] has the loading flag cleared and an error message that
    is not empty: the message of the caught error when it has a non-empty
    one, the fixed fallback otherwise.  The content area then shows the
    error branch, neither the idle placeholder nor the loading one. *)
Theorem C5_failure_yields_error (err : JsError) (s : AppState) :
  let s' := fetchWeather_settle (Rejected err) s in
  let msg := match message err with
             | Some (c :: r) => c :: r
             | _ => fallbackMessage
             end in
  msg <> []
  /\ error s' = Some msg
  /\ loading s' = false
  /\ status s' = Error msg
  /\ status s' <> Idle /\ status s' <> Loading.
Proof.
  simpl.
  assert (Hne : orElse (message err) fallbackMessage <> [])
    by (apply orElse_nonempty; discriminate).
  change (match message err with
          | Some (c :: r) => c :: r
          | _ => fallbackMessage
          end) with (orElse (message err) fallbackMessage).
  destruct (orElse (message err) fallbackMessage) as [|c r] eqn:Hmsg;
    [congruence|].
  unfold status. simpl. rewrite ?Hmsg.
  repeat split; try reflexivity; discriminate.
Qed.

(** C6: when [generateContent] succeeds, the stored answer text is the
    text of the response when that is not empty, and the placeholder
    "No weather data found.", itself not empty, when the text is empty or
    absent; after a whole call of [fetchWeather] the content area shows
    that text as the answer. *)
Theorem C6_empty_answer_placeholder (response : GenerateContentResponse) (s : AppState) :
  let answer := match text response with
                | Some (c :: r) => c :: r
                | _ => placeholderText
                end in
  placeholderText <> []
  /\ weatherData (fetchWeather_settle (Fulfilled response) s) = Some answer
  /\ sources (fetchWeather_settle (Fulfilled response) s) = chunksOf response
  /\ status (fetchWeather (Fulfilled response) s) = Success answer (chunksOf response).
Proof.
  simpl.
  change (match text response with
          | Some (c :: r) => c :: r
          | _ => placeholderText
          end) with (orElse (text response) placeholderText).
  assert (Hne : orElse (text response) placeholderText <> [])
    by (apply orElse_nonempty; discriminate).
  split; [discriminate|]. split; [reflexivity|]. split; [reflexivity|].
  unfold status. simpl.
  destruct (orElse (text response) placeholderText); [congruence | reflexivity].
Qed.

Lemma demoPlatform_printsNumbers : printsNumbers demoPlatform.
Proof.
  intros x _. unfold demoPlatform, Number_toString.
  destruct (PrimFloat.eqb x 48.5%float); [reflexivity|].
  destruct (PrimFloat.eqb x (-2.25)%float); reflexivity.
Qed.

Lemma demoPlatformTiny_printsNumbers : printsNumbers demoPlatformTiny.
Proof.
  intros x Hx. unfold demoPlatformTiny, Number_toString at 1.
  destruct (PrimFloat.eqb x tinyLatitude); [reflexivity|].
  now apply demoPlatform_printsNumbers.
Qed.




(** C9: in a browser without the geolocation API, [handleLocationClick]
    only stores the message "Geolocation is not supported by your
    browser.": the loading flag, the answer text and the sources are what
    they were and nothing is put in flight; the click being possible only
    when the flag is clear, the content area shows that message. *)
Theorem C9_unsupported_geolocation_frame P w :
  geolocation_in_navigator P = false ->
  let w' := handleLocationClick P w in
  let msg := lit "Geolocation is not supported by your browser." in
  error (ui w') = Some msg
  /\ loading (ui w') = loading (ui w)
  /\ weatherData (ui w') = weatherData (ui w)
  /\ sources (ui w') = sources (ui w)
  /\ query (ui w') = query (ui w)
  /\ inflight w' = inflight w
  /\ (loading (ui w) = false ->
      dispatch P ClickLocation w = Some w' /\ status (ui w') = Error msg).
Proof.
  intro Hgeo. cbv zeta. unfold dispatch, handleLocationClick. rewrite Hgeo.
  cbn [ui inflight setError error loading weatherData sources query].
  do 6 (split; [reflexivity|]).
  intro Hl. rewrite Hl. split; [reflexivity|].
  unfold status. cbn [setError error loading]. now rewrite Hl.
Qed.

Lemma C9_unsupported_geolocation_frame_witness :
  let w := after demoPlatformNoGeolocation (demoSearch ++ [demoAnswer]) in
  let w' := handleLocationClick demoPlatformNoGeolocation w in
  geolocation_in_navigator demoPlatformNoGeolocation = false
  /\ loading (ui w) = false
  /\ weatherData (ui w') = Some (lit "Sunny")
  /\ status (ui w') = Error (lit "Geolocation is not supported by your browser.").
Proof.
  assert (Hgeo : geolocation_in_navigator demoPlatformNoGeolocation = false)
    by reflexivity.
  assert (Hl : loading (ui (after demoPlatformNoGeolocation
                              (demoSearch ++ [demoAnswer]))) = false)
    by (vm_compute; reflexivity).
  split; [exact Hgeo | split; [exact Hl|]].
  destruct (C9_unsupported_geolocation_frame demoPlatformNoGeolocation
              (after demoPlatformNoGeolocation (demoSearch ++ [demoAnswer])) Hgeo)
    as [_ [_ [Hw [_ [_ [_ Hshow]]]]]].
  split.
  - rewrite Hw. vm_compute. reflexivity.
  - apply Hshow. exact Hl.
Defined.

(* ================================================================= *)
(** ** Grounding sources *)

(** C1, as stated, fails: a citation whose title is present and empty is
    shown under the host of its URL, not under its title. *)
Lemma C1_empty_title_shows_host :
  renderSources demoPlatform demoChunks
  = Some [ {| href := Some (lit "https://a.com"); label := lit "a.com" |};
           {| href := Some (lit "https://a.com"); label := lit "a.com" |} ]
  /\ ~ (exists anchors,
          renderSources demoPlatform demoChunks = Some anchors
          /\ anchorsOf (spec_displayTitle demoPlatform) (websOf demoChunks) anchors).
Proof.
  split; [vm_compute; reflexivity|].
  intros [anchors [Hrender Hspec]].
  vm_compute in Hrender. injection Hrender as <-.
  inversion Hspec as [|w a webs rest [_ Htitle] _]; subst.
  vm_compute in Htitle. discriminate Htitle.
Qed.

(** Without a non-empty title and without a URL the parser accepts, one
    citation is enough for the whole list to fail to render. *)
Lemma renderSources_throws P chunks w :
  In w (websOf chunks) ->
  truthy (title w) = false -> URL_hostname P (uri w) = None ->
  renderSources P chunks = None.
Proof.
  intros Hin Htitle Hhost.
  induction chunks as [|chunk rest IH]; simpl in Hin |- *; [contradiction|].
  unfold renderSource. destruct (web chunk) as [w'|].
  - destruct Hin as [-> | Hin].
    + unfold displayTitle. now rewrite Htitle, Hhost.
    + rewrite (IH Hin). now destruct (displayTitle P w').
  - now rewrite (IH Hin).
Qed.

(** C1, amended: when every citation with a [web] field has a non-empty
    title or a URL that the platform's parser accepts, the rendered
    sources are the citations that have a [web] field, in input order;
    each links to the citation's URL and shows its title when that is
    present and not empty, the host of its URL otherwise. *)
Theorem C1_sources_in_order P chunks :
  (forall w, In w (websOf chunks) ->
             truthy (title w) = false -> URL_hostname P (uri w) <> None) ->
  exists anchors,
    renderSources P chunks = Some anchors
    /\ anchorsOf (fun w => match title w with
                           | Some (c :: r) => Some (c :: r)
                           | _ => URL_hostname P (uri w)
                           end)
                 (websOf chunks) anchors.
Proof.
  induction chunks as [|chunk rest IH]; intro Hparse.
  - exists []. split; [reflexivity | constructor].
  - simpl in Hparse |- *. unfold renderSource.
    destruct (web chunk) as [w|].
    + destruct IH as [anchors [Hrest Hall]].
      { intros w' Hin. apply Hparse. now right. }
      rewrite Hrest. unfold displayTitle.
      assert (Htitle : exists t,
                 (if truthy (title w) then title w else URL_hostname P (uri w)) = Some t
                 /\ match title w with
                    | Some (c :: r) => Some (c :: r)
                    | _ => URL_hostname P (uri w)
                    end = Some t).
      { specialize (Hparse w (or_introl eq_refl)).
        destruct (title w) as [[|c r]|]; simpl in *;
          try (destruct (URL_hostname P (uri w)) as [h|];
               [now exists h | now elim Hparse]).
        now exists (c :: r). }
      destruct Htitle as [t [-> Hrule]].
      eexists. split; [reflexivity|].
      constructor; [split; [reflexivity | exact Hrule] | exact Hall].
    + destruct IH as [anchors [Hrest Hall]]; [exact Hparse|].
      rewrite Hrest. now exists anchors.
Qed.

Lemma C1_sources_in_order_witness :
  (forall w, In w (websOf demoChunks) ->
             truthy (title w) = false -> URL_hostname demoPlatform (uri w) <> None)
  /\ exists anchors,
       renderSources demoPlatform demoChunks = Some anchors
       /\ List.length anchors = List.length (websOf demoChunks).
Proof.
  assert (Hparse : forall w, In w (websOf demoChunks) ->
             truthy (title w) = false -> URL_hostname demoPlatform (uri w) <> None).
  { simpl. intros w [<- | [<- | []]] _; vm_compute; discriminate. }
  split; [exact Hparse|].
  destruct (C1_sources_in_order demoPlatform demoChunks Hparse)
    as [anchors [Hrender Hall]].
  exists anchors. split; [exact Hrender|].
  symmetry. exact (Forall2_length Hall).
Defined.

(* ================================================================= *)
(** ** More on lines and blocks *)

Section Lines.

Lemma split_cons_shape sep s : exists piece pieces, split sep s = piece :: pieces.
Proof.
  destruct s as [|c r]; simpl; [now exists [], []|].
  destruct (N.eqb c sep); [now exists [], (split sep r)|].
  destruct (split sep r) as [|piece pieces]; [now exists [c], [] | now exists (c :: piece), pieces].
Qed.

Lemma split_length sep s :
  List.length (split sep s) = S (count_occ N.eq_dec s sep).
Proof.
  induction s as [|c r IH]; [reflexivity|].
  simpl split. destruct (N.eqb_spec c sep) as [->|Hne].
  - rewrite count_occ_cons_eq by reflexivity. simpl. now rewrite IH.
  - rewrite count_occ_cons_neq by exact Hne.
    destruct (split_cons_shape sep r) as [piece [pieces Hsplit]].
    rewrite Hsplit in IH |- *. exact IH.
Qed.

Lemma split_app sep a b :
  split sep (a ++ sep :: b) = split sep a ++ split sep b.
Proof.
  induction a as [|c r IH]; simpl.
  - now rewrite N.eqb_refl.
  - destruct (N.eqb c sep); [now rewrite IH|].
    rewrite IH. destruct (split_cons_shape sep r) as [piece [pieces ->]].
    reflexivity.
Qed.

Lemma split_no_sep sep s piece : In piece (split sep s) -> ~ In sep piece.
Proof.
  revert piece. induction s as [|c r IH]; simpl; intros piece Hin.
  - destruct Hin as [<- | []]. intros [].
  - destruct (N.eqb_spec c sep) as [->|Hne].
    + destruct Hin as [<- | Hin]; [intros [] | now apply IH].
    + destruct (split sep r) as [|first pieces].
      * destruct Hin as [<- | []]. intros [Heq | []]. congruence.
      * destruct Hin as [<- | Hin].
        -- intros [Heq | Hin']; [congruence|].
           apply (IH first); [now left | exact Hin'].
        -- apply IH. now right.
Qed.

Lemma deleteAll_from_In pat k s c : In c (deleteAll_from pat k s) -> In c s.
Proof.
  revert k. induction s as [|x r IH]; intro k; simpl; [auto|].
  destruct k as [|k].
  - destruct (startsWith pat (x :: r)).
    + intro H. right. now apply IH with (pred (List.length pat)).
    + intros [<- | H]; [now left | right; now apply IH with 0].
  - intro H. right. now apply IH with k.
Qed.

Lemma deleteAll_In pat s c : In c (deleteAll pat s) -> In c s.
Proof. apply deleteAll_from_In. Qed.

Lemma dropWhile_In f s c : In c (dropWhile f s) -> In c s.
Proof.
  induction s as [|x r IH]; simpl; [auto|].
  destruct (f x); [intro H; right; now apply IH | auto].
Qed.

Lemma stripBullet_In line c : In c (stripBullet line) -> In c line.
Proof.
  destruct line as [|x r]; simpl; [auto|].
  destruct (isBullet x); [intro H; right; now apply dropWhile_In with isWhiteSpace | auto].
Qed.

Lemma dropWhile_nil_iff f s :
  dropWhile f s = [] <-> Forall (fun c => f c = true) s.
Proof.
  induction s as [|x r IH]; simpl.
  - split; [constructor | reflexivity].
  - destruct (f x) eqn:Hx.
    + rewrite IH. split; [now constructor | now inversion 1].
    + split; [discriminate | inversion 1; congruence].
Qed.

Lemma dropWhile_head f s c r : dropWhile f s = c :: r -> f c = false.
Proof.
  induction s as [|x t IH]; simpl; [discriminate|].
  destruct (f x) eqn:Hx; [exact IH | now intros [= <- _]].
Qed.

Lemma dropWhile_snoc f s c :
  f c = false -> dropWhile f (s ++ [c]) = dropWhile f s ++ [c].
Proof.
  intro Hc. induction s as [|x t IH]; simpl.
  - now rewrite Hc.
  - destruct (f x); [exact IH | reflexivity].
Qed.

Lemma dropWhile_skip f pre s :
  Forall (fun c => f c = true) pre -> dropWhile f (pre ++ s) = dropWhile f s.
Proof.
  induction 1 as [|x t Hx _ IH]; simpl; [reflexivity | now rewrite Hx].
Qed.

Lemma Forall_rev_iff (Q : N -> Prop) (s : list N) : Forall Q (rev s) <-> Forall Q s.
Proof.
  rewrite !Forall_forall. split; intros H x Hx; apply H.
  - now apply in_rev in Hx.
  - now apply in_rev.
Qed.

(** [trim] gives the empty string exactly on whitespace. *)
Lemma trim_nil_iff s : trim s = [] <-> allWhiteSpace s.
Proof.
  unfold trim, trimEnd, trimStart, allWhiteSpace. split.
  - intro H. apply (f_equal (@rev N)) in H. rewrite rev_involutive in H.
    simpl in H. apply dropWhile_nil_iff in H. apply -> Forall_rev_iff in H.
    destruct (dropWhile isWhiteSpace s) as [|c r] eqn:Hdrop.
    + now apply dropWhile_nil_iff.
    + apply dropWhile_head in Hdrop. apply Forall_inv in H. simpl in H.
      congruence.
  - intro H. apply dropWhile_nil_iff in H. now rewrite H.
Qed.

Lemma trim_skip pre s : allWhiteSpace pre -> trim (pre ++ s) = trim s.
Proof.
  intro H. unfold trim, trimStart. now rewrite dropWhile_skip.
Qed.

Lemma trim_cons c r :
  isWhiteSpace c = false -> exists r', trim (c :: r) = c :: r'.
Proof.
  intro Hc. unfold trim, trimStart, trimEnd. simpl dropWhile at 2.
  rewrite Hc. simpl rev at 2.
  rewrite (dropWhile_snoc _ _ _ Hc), rev_unit. now eexists.
Qed.

Lemma isBullet_not_space c : isBullet c = true -> isWhiteSpace c = false.
Proof.
  unfold isBullet. intro H. apply orb_true_iff in H as [H | H];
    apply N.eqb_eq in H; subst c; reflexivity.
Qed.

Lemma space_not_marker c x :
  isWhiteSpace c = true -> isWhiteSpace x = false -> N.eqb x c = false.
Proof.
  intros Hc Hx. destruct (N.eqb_spec x c); [congruence | reflexivity].
Qed.

End Lines.

(* ================================================================= *)
(** ** The renderer on whole texts and on the shapes of a line *)

Lemma deleteAll_bold_indent pre s :
  allWhiteSpace pre -> deleteAll bold (pre ++ s) = pre ++ deleteAll bold s.
Proof.
  induction 1 as [|x t Hx _ IH]; simpl app; [reflexivity|].
  rewrite deleteAll_bold_other, IH; [reflexivity|].
  intros ->. discriminate Hx.
Qed.

Lemma startsWith_marker_space pat c r x :
  isWhiteSpace c = true -> isWhiteSpace x = false ->
  startsWith (x :: pat) (c :: r) = false.
Proof.
  intros Hc Hx. simpl. now rewrite (space_not_marker c x Hc Hx).
Qed.

(** X1: [renderMarkdown] returns one block for each line of the text: one
    more than the text has newlines, so at least one, also for the empty
    text. *)
Theorem renderMarkdown_block_count text :
  List.length (renderMarkdown text) = S (count_occ N.eq_dec text newline).
Proof. rewrite renderMarkdown_length. apply split_length. Qed.

(** X2: rendering two texts joined by a newline gives the blocks of the
    first followed by the blocks of the second: no line influences the
    block of another. *)
Theorem renderMarkdown_app a b :
  renderMarkdown (a ++ newline :: b) = renderMarkdown a ++ renderMarkdown b.
Proof. unfold renderMarkdown. now rewrite split_app, map_app. Qed.

(** X3: a line is rendered as a blank exactly when all its code units are
    whitespace; the empty line is one. *)
Theorem renderLine_Blank_iff line :
  renderLine line = Blank <-> allWhiteSpace line.
Proof.
  unfold renderLine. split.
  - destruct (startsWith bold line || startsWith [hash] line); [discriminate|].
    destruct (startsWith [star] (trim line) || startsWith [dash] (trim line));
      [discriminate|].
    destruct (eqb (trim line) []) eqn:Hblank; [|discriminate].
    intros _. apply trim_nil_iff. now apply eqb_eq.
  - intro Hws.
    assert (Hhead : startsWith bold line || startsWith [hash] line = false).
    { destruct Hws as [|c r Hc _]; [reflexivity|].
      unfold bold. now rewrite !startsWith_marker_space. }
    rewrite Hhead. apply trim_nil_iff in Hws. now rewrite Hws.
Qed.

(** X4: a line whose first code unit is a bullet, [-] or a [*] that does
    not open a [**], is a list item; its content is the rest of the line
    without the whitespace that follows the bullet and without the [**]
    markers. *)
Theorem renderLine_bullet_first c r :
  isBullet c = true ->
  startsWith bold (c :: r) = false ->
  renderLine (c :: r) = ListItem (deleteAll bold (dropWhile isWhiteSpace r)).
Proof.
  intros Hc Hbold. unfold renderLine. rewrite Hbold.
  assert (Hhash : startsWith [hash] (c :: r) = false).
  { rewrite startsWith_one. unfold isBullet in Hc.
    apply orb_true_iff in Hc as [Hc | Hc]; apply N.eqb_eq in Hc; now subst c. }
  rewrite Hhash. cbn [orb].
  destruct (trim_cons c r (isBullet_not_space c Hc)) as [r' ->].
  rewrite !startsWith_one, (N.eqb_sym star c), (N.eqb_sym dash c).
  unfold isBullet in Hc. rewrite Hc. unfold stripBullet, isBullet. now rewrite Hc.
Qed.

Lemma renderLine_bullet_first_witness :
  renderLine (lit "-  **Wind**: 5 km/h") = ListItem (lit "Wind: 5 km/h").
Proof.
  exact (renderLine_bullet_first dash (lit "  **Wind**: 5 km/h") eq_refl eq_refl).
Defined.

(** X5: when whitespace precedes the bullet the line is still a list
    item, and its content is the whole line, indentation and bullet
    included, less its [**] markers. *)
Theorem renderLine_indented_bullet pre c r :
  allWhiteSpace pre -> pre <> [] ->
  isBullet c = true ->
  renderLine (pre ++ c :: r) = ListItem (pre ++ deleteAll bold (c :: r)).
Proof.
  intros Hpre Hne Hc. unfold renderLine.
  assert (Hhead : startsWith bold (pre ++ c :: r)
                  || startsWith [hash] (pre ++ c :: r) = false).
  { destruct Hpre as [|x t Hx _]; [congruence|].
    simpl app. unfold bold. now rewrite !startsWith_marker_space. }
  rewrite Hhead, (trim_skip pre _ Hpre).
  destruct (trim_cons c r (isBullet_not_space c Hc)) as [r' ->].
  rewrite !startsWith_one, (N.eqb_sym star c), (N.eqb_sym dash c).
  unfold isBullet in Hc. rewrite Hc.
  f_equal. rewrite <- (deleteAll_bold_indent pre _ Hpre). f_equal.
  destruct Hpre as [|x t Hx _]; [congruence|].
  simpl. destruct (isBullet x) eqn:Hbx; [|reflexivity].
  apply isBullet_not_space in Hbx. congruence.
Qed.

Lemma renderLine_indented_bullet_witness :
  renderLine (lit "   * **Humidity** 40%") = ListItem (lit "   * Humidity 40%").
Proof.
  apply (renderLine_indented_bullet (lit "   ") star (lit " **Humidity** 40%")).
  - repeat constructor.
  - discriminate.
  - reflexivity.
Defined.

(** X6: no [**] is left in the content of a paragraph or of a list
    item. *)
Theorem renderLine_no_bold_left line content :
  renderLine line = Paragraph content \/ renderLine line = ListItem content ->
  ~ includes content bold.
Proof.
  unfold renderLine.
  destruct (startsWith bold line || startsWith [hash] line);
    [intros [H | H]; discriminate H|].
  destruct (startsWith [star] (trim line) || startsWith [dash] (trim line)).
  - intros [H | H]; [discriminate H|]. injection H as <-.
    apply deleteAll_bold_clean.
  - destruct (eqb (trim line) []); [intros [H | H]; discriminate H|].
    intros [H | H]; [|discriminate H]. injection H as <-.
    apply deleteAll_bold_clean.
Qed.

Lemma renderLine_no_bold_left_witness :
  ~ includes (lit "Feels *very* nice") bold.
Proof.
  apply (renderLine_no_bold_left (lit "Feels ***very*** nice")).
  left. vm_compute. reflexivity.
Defined.

(** X7: no block of [renderMarkdown] has a newline in its content. *)
Theorem renderMarkdown_no_newline text block :
  In block (renderMarkdown text) -> ~ In newline (blockContent block).
Proof.
  unfold renderMarkdown. intro Hin. apply in_map_iff in Hin as [line [<- Hline]].
  apply split_no_sep in Hline. intro Hnl. apply Hline. clear Hline.
  unfold renderLine in Hnl.
  destruct (startsWith bold line || startsWith [hash] line).
  - simpl in Hnl. now apply deleteAll_In, deleteAll_In in Hnl.
  - destruct (startsWith [star] (trim line) || startsWith [dash] (trim line)).
    + simpl in Hnl. now apply deleteAll_In, stripBullet_In in Hnl.
    + destruct (eqb (trim line) []); [destruct Hnl|].
      simpl in Hnl. now apply deleteAll_In in Hnl.
Qed.

Lemma renderMarkdown_no_newline_witness :
  ~ In newline (lit "Sunny").
Proof.
  apply (renderMarkdown_no_newline (lit "# Today" ++ [newline] ++ lit "- **Sunny**")
           (ListItem (lit "Sunny"))).
  vm_compute. right. left. reflexivity.
Defined.

(* ================================================================= *)
(** ** Prompts and the search handler *)

(** X8: the prompt of a place-name query contains the place as typed and
    the names of the four fields asked for, and is never empty. *)
Theorem placePrompt_contents place :
  includes (placePrompt place) place
  /\ includes (placePrompt place) (lit "temperature")
  /\ includes (placePrompt place) (lit "sky condition")
  /\ includes (placePrompt place) (lit "humidity")
  /\ includes (placePrompt place) (lit "wind speed")
  /\ placePrompt place <> [].
Proof.
  unfold placePrompt.
  assert (Htail : forall field before after,
             promptTail = before ++ field ++ after ->
             includes (lit "What is the current weather in " ++ place ++ promptTail) field).
  { intros field before after ->. do 2 apply includes_app_r. apply includes_intro. }
  repeat split.
  - apply includes_intro.
  - apply Htail with (lit "? Please provide a summary including ")
      (lit ", sky condition, humidity, and wind speed. Format it nicely with markdown.").
    reflexivity.
  - apply Htail with (lit "? Please provide a summary including temperature, ")
      (lit ", humidity, and wind speed. Format it nicely with markdown.").
    reflexivity.
  - apply Htail with (lit "? Please provide a summary including temperature, sky condition, ")
      (lit ", and wind speed. Format it nicely with markdown.").
    reflexivity.
  - apply Htail with (lit "? Please provide a summary including temperature, sky condition, humidity, and ")
      (lit ". Format it nicely with markdown.").
    reflexivity.
  - discriminate.
Qed.

(** X9: two places with the same prompt are the same place: the template
    loses nothing of what was typed. *)
Theorem placePrompt_injective a b : placePrompt a = placePrompt b -> a = b.
Proof.
  unfold placePrompt. intro H.
  apply app_inv_head in H. now apply app_inv_tail in H.
Qed.

Lemma placePrompt_injective_witness : lit "Paris" = lit "Paris".
Proof. exact (placePrompt_injective (lit "Paris") (lit "Paris") eq_refl). Defined.

(** X10: [handleSearch] does nothing at all when the query is empty or
    all whitespace; otherwise it calls [fetchWeather] with the prompt of
    the query as typed, not trimmed. *)
Theorem handleSearch_blank w :
  (allWhiteSpace (query (ui w)) -> handleSearch w = w)
  /\ (~ allWhiteSpace (query (ui w)) ->
      handleSearch w = callFetchWeather (placePrompt (query (ui w))) w).
Proof.
  unfold handleSearch. split; intro H.
  - apply trim_nil_iff in H. now rewrite H.
  - destruct (eqb (trim (query (ui w))) []) eqn:Hblank; [|reflexivity].
    elim H. apply trim_nil_iff. now apply eqb_eq.
Qed.

Lemma handleSearch_blank_witness :
  allWhiteSpace (lit "   ")
  /\ handleSearch {| ui := setQuery (lit "   ") initialState; inflight := [] |}
     = {| ui := setQuery (lit "   ") initialState; inflight := [] |}
  /\ ~ allWhiteSpace (lit " Paris ")
  /\ inflight (handleSearch {| ui := setQuery (lit " Paris ") initialState; inflight := [] |})
     = [AwaitGeneration (placePrompt (lit " Paris "))].
Proof.
  assert (Hblank : allWhiteSpace (lit "   ")) by (repeat constructor).
  assert (Hfull : ~ allWhiteSpace (lit " Paris ")).
  { intro H. apply Forall_inv_tail, Forall_inv in H. discriminate H. }
  split; [exact Hblank | split; [|split; [exact Hfull|]]].
  - exact (proj1 (handleSearch_blank
                    {| ui := setQuery (lit "   ") initialState; inflight := [] |}) Hblank).
  - rewrite (proj2 (handleSearch_blank
                      {| ui := setQuery (lit " Paris ") initialState; inflight := [] |}) Hfull).
    reflexivity.
Defined.

(* ================================================================= *)
(** ** Invariants of the sessions *)

Lemma orElse_not_empty v fallback : fallback <> [] -> Some (orElse v fallback) <> Some [].
Proof. intros H [= Heq]. now apply (orElse_nonempty v fallback H). Qed.

Lemma wellStored_begin s : wellStored (fetchWeather_begin s).
Proof. repeat split; simpl; discriminate. Qed.

Lemma wellStored_settle o s : wellStored s -> wellStored (fetchWeather_settle o s).
Proof.
  intros [He [Hw Hs]]. destruct o as [response | err]; repeat split; simpl.
  - exact He.
  - apply orElse_not_empty. discriminate.
  - discriminate.
  - apply orElse_not_empty. discriminate.
  - exact Hw.
  - exact Hs.
Qed.

Lemma wellStored_dispatch P ev w w' :
  wellStored (ui w) -> dispatch P ev w = Some w' -> wellStored (ui w').
Proof.
  intro Hw. destruct ev as [value| | |latitude longitude| |prompt o]; simpl.
  - intros [= <-]. exact Hw.
  - destruct (loading (ui w)); [discriminate|]. intros [= <-].
    unfold handleSearch. destruct (eqb (trim (query (ui w))) []); [exact Hw|].
    apply wellStored_begin.
  - destruct (loading (ui w)); [discriminate|]. intros [= <-].
    unfold handleLocationClick. destruct (geolocation_in_navigator P).
    + exact Hw.
    + destruct Hw as [He [Ha Hs]]. repeat split; simpl; [discriminate | exact Ha | exact Hs].
  - destruct (takeAwait AwaitPosition (inflight w)); [|discriminate].
    intros [= <-]. repeat split; simpl; discriminate.
  - destruct (takeAwait AwaitPosition (inflight w)); [|discriminate].
    intros [= <-]. destruct Hw as [He [Ha Hs]].
    repeat split; simpl; [discriminate | exact Ha | exact Hs].
  - destruct (takeAwait (AwaitGeneration prompt) (inflight w)); [|discriminate].
    intros [= <-]. now apply wellStored_settle.
Qed.

Lemma reachable_wellStored P w : reachable P w -> wellStored (ui w).
Proof.
  induction 1 as [|ev w w' _ IH Hstep].
  - repeat split; simpl; discriminate.
  - now apply wellStored_dispatch with P ev w.
Qed.

(** X11: in every reachable session at most one asynchronous operation is
    in flight: nothing, the position lookup alone, or one generation call
    alone. *)
Theorem reachable_one_in_flight P w :
  reachable P w ->
  inflight w = [] \/ inflight w = [AwaitPosition]
  \/ exists prompt, inflight w = [AwaitGeneration prompt].
Proof.
  intro Hreach.
  destruct (reachable_coherent P w Hreach)
    as [[Hfl _] | [[Hfl _] | [prompt [Hfl _]]]]; eauto.
Qed.

Lemma reachable_one_in_flight_witness :
  exists prompt, inflight (after demoPlatform demoSearch) = [AwaitGeneration prompt].
Proof.
  destruct (reachable_one_in_flight demoPlatform (after demoPlatform demoSearch))
    as [Hnone | [Hpos | Hgen]].
  - eapply after_reachable. vm_compute. reflexivity.
  - vm_compute in Hnone. discriminate Hnone.
  - vm_compute in Hpos. discriminate Hpos.
  - exact Hgen.
Defined.

(** The answer branch of the content area: it renders the blocks of the
    answer with the anchors of the sources when these render, and throws
    when they do not. *)
Lemma contentArea_answer P s answer chunks :
  status s = Success answer chunks ->
  (forall anchors,
      renderSources P chunks = Some anchors ->
      contentArea P s
      = Some (Answer (renderMarkdown answer)
                match chunks with
                | [] => None
                | _ :: _ => Some anchors
                end))
  /\ (renderSources P chunks = None -> contentArea P s = None).
Proof.
  intro Hs. unfold contentArea. rewrite Hs.
  destruct chunks as [|chunk rest]; split.
  - reflexivity.
  - discriminate.
  - now intros anchors ->.
  - now intros ->.
Qed.

Lemma reachable_status_of_stored P w :
  reachable P w -> loading (ui w) = false ->
  (forall msg, error (ui w) = Some msg -> status (ui w) = Error msg)
  /\ (forall answer, error (ui w) = None -> weatherData (ui w) = Some answer ->
                     status (ui w) = Success answer (sources (ui w)))
  /\ (status (ui w) = Idle <-> error (ui w) = None /\ weatherData (ui w) = None).
Proof.
  intros Hreach Hl. destruct (reachable_wellStored P w Hreach) as [He [Ha _]].
  unfold status. rewrite Hl.
  destruct (error (ui w)) as [[|c r]|] eqn:Ee; [now elim He | |].
  - split; [now intros msg [= <-]|]. split; [discriminate|].
    split; [discriminate | intros [H _]; discriminate H].
  - split; [discriminate|].
    destruct (weatherData (ui w)) as [[|c r]|] eqn:Ea; [now elim Ha | |].
    + split; [now intros answer _ [= <-]|].
      split; [discriminate | intros [_ H]; discriminate H].
    + split; [discriminate|]. now split.
Qed.

(** X12: in every reachable session no stored error message and no stored
    answer is the empty string.  So with the loading flag clear a stored
    message is rendered in the error box; a stored answer, when no message
    is stored, selects the answer branch, which renders the blocks of the
    answer with the anchors of the stored sources when these render and
    throws when they do not; and the placeholder is rendered exactly when
    neither is stored. *)
Theorem reachable_stored_is_shown P w :
  reachable P w ->
  error (ui w) <> Some [] /\ weatherData (ui w) <> Some []
  /\ (loading (ui w) = false ->
      (forall msg, error (ui w) = Some msg ->
                   contentArea P (ui w) = Some (ErrorBox msg))
      /\ (forall answer,
             error (ui w) = None -> weatherData (ui w) = Some answer ->
             status (ui w) = Success answer (sources (ui w))
             /\ (forall anchors,
                    renderSources P (sources (ui w)) = Some anchors ->
                    contentArea P (ui w)
                    = Some (Answer (renderMarkdown answer)
                              match sources (ui w) with
                              | [] => None
                              | _ :: _ => Some anchors
                              end))
             /\ (renderSources P (sources (ui w)) = None ->
                 contentArea P (ui w) = None))
      /\ (contentArea P (ui w) = Some Placeholder
          <-> error (ui w) = None /\ weatherData (ui w) = None)).
Proof.
  intro Hreach. destruct (reachable_wellStored P w Hreach) as [He [Ha _]].
  split; [exact He | split; [exact Ha|]].
  intro Hl.
  destruct (reachable_status_of_stored P w Hreach Hl) as [Herr [Hans Hidle]].
  split; [|split].
  - intros msg Hmsg. unfold contentArea. now rewrite (Herr msg Hmsg).
  - intros answer Hnone Hanswer. pose proof (Hans answer Hnone Hanswer) as Hs.
    split; [exact Hs|]. now apply contentArea_answer.
  - rewrite <- Hidle. unfold contentArea.
    destruct (status (ui w)) as [|msg|answer chunks|]; split;
      try discriminate; try reflexivity.
    destruct chunks as [|chunk rest]; [discriminate|].
    destruct (renderSources P (chunk :: rest)); discriminate.
Qed.

Lemma reachable_stored_is_shown_witness :
  contentArea demoPlatform (ui (after demoPlatform (demoSearch ++ [demoFailure])))
  = Some (ErrorBox fallbackMessage).
Proof.
  destruct (reachable_stored_is_shown demoPlatform
              (after demoPlatform (demoSearch ++ [demoFailure])))
    as [_ [_ Hshown]].
  - eapply after_reachable. vm_compute. reflexivity.
  - destruct Hshown as [Herr _]; [vm_compute; reflexivity|].
    apply Herr. vm_compute. reflexivity.
Defined.

(** X13: in every reachable session sources are stored only together
    with an answer. *)
Theorem reachable_sources_need_answer P w :
  reachable P w -> sources (ui w) <> [] ->
  exists answer, weatherData (ui w) = Some answer /\ answer <> [].
Proof.
  intros Hreach Hsrc. destruct (reachable_wellStored P w Hreach) as [_ [Ha Hs]].
  destruct (weatherData (ui w)) as [answer|] eqn:Ea; [|now elim Hsrc; apply Hs].
  exists answer. split; [reflexivity | intros ->; now elim Ha].
Qed.

Lemma reachable_sources_need_answer_witness :
  let w := after demoPlatform
             (demoSearch ++ [GenerationSettled (placePrompt (lit "Paris"))
                (Fulfilled {| text := None;
                              candidates := Some [ {| groundingMetadata :=
                                Some {| groundingChunks := Some demoChunks |} |} ] |})]) in
  sources (ui w) = demoChunks
  /\ exists answer, weatherData (ui w) = Some answer /\ answer <> [].
Proof.
  split; [vm_compute; reflexivity|].
  apply (reachable_sources_need_answer demoPlatform).
  - eapply after_reachable. vm_compute. reflexivity.
  - vm_compute. discriminate.
Defined.

(* ================================================================= *)
(** ** How the callbacks end what the handlers began *)

Lemma settle_enabled P w prompt o w' :
  coherent w -> dispatch P (GenerationSettled prompt o) w = Some w' ->
  generating w /\ w' = {| ui := fetchWeather_settle o (ui w); inflight := [] |}.
Proof.
  intros Hcoh. simpl.
  destruct Hcoh as [[Hfl Hl] | [[Hfl Hl] | Hgen]].
  - rewrite Hfl. discriminate.
  - rewrite Hfl. discriminate.
  - split; [exact Hgen|]. destruct Hgen as [prompt' [Hfl _]].
    rewrite Hfl in H. simpl in H.
    destruct (eqb prompt prompt'); [|discriminate H]. now injection H as <-.
Qed.

Lemma position_enabled w rest :
  coherent w -> takeAwait AwaitPosition (inflight w) = Some rest ->
  locating w /\ rest = [].
Proof.
  intros [[Hfl Hl] | [[Hfl Hl] | [prompt [Hfl _]]]]; rewrite Hfl; simpl;
    try discriminate.
  intros [= <-]. now repeat split.
Qed.

Lemma generation_settles_status P w prompt o w' :
  reachable P w ->
  dispatch P (GenerationSettled prompt o) w = Some w' ->
  inflight w' = [] /\ query (ui w') = query (ui w)
  /\ match o with
     | Fulfilled response =>
         status (ui w')
         = Success (orElse (text response) placeholderText) (chunksOf response)
         /\ error (ui w') = None
     | Rejected err =>
         status (ui w') = Error (orElse (message err) fallbackMessage)
         /\ weatherData (ui w') = None /\ sources (ui w') = []
     end.
Proof.
  intros Hreach Hstep.
  destruct (settle_enabled P w prompt o w' (reachable_coherent P w Hreach) Hstep)
    as [[prompt' [_ [_ [He [Ha Hs]]]]] ->].
  split; [reflexivity | split; [now destruct o|]].
  destruct o as [response | err]; unfold status; simpl.
  - rewrite He.
    pose proof (orElse_nonempty (text response) placeholderText) as Hne.
    destruct (orElse (text response) placeholderText);
      [elim Hne; [discriminate | reflexivity] | now split].
  - pose proof (orElse_nonempty (message err) fallbackMessage) as Hne.
    destruct (orElse (message err) fallbackMessage);
      [elim Hne; [discriminate | reflexivity] | now repeat split].
Qed.

(** X14: when the generation call of a reachable session settles, nothing
    is left in flight and the query is as it was.  After a success no
    error is stored and the answer branch is selected, with the text of
    the response, placeholder for an empty one, and its chunks: it renders
    the blocks of that text with the anchors of the chunks when these
    render, and throws when they do not.  After a failure the error box is
    rendered with the message, and neither answer nor sources are
    stored. *)
Theorem generation_settles P w prompt o w' :
  reachable P w ->
  dispatch P (GenerationSettled prompt o) w = Some w' ->
  inflight w' = [] /\ query (ui w') = query (ui w)
  /\ match o with
     | Fulfilled response =>
         status (ui w')
         = Success (orElse (text response) placeholderText) (chunksOf response)
         /\ error (ui w') = None
         /\ (forall anchors,
                renderSources P (chunksOf response) = Some anchors ->
                contentArea P (ui w')
                = Some (Answer
                          (renderMarkdown (orElse (text response) placeholderText))
                          match chunksOf response with
                          | [] => None
                          | _ :: _ => Some anchors
                          end))
         /\ (renderSources P (chunksOf response) = None ->
             contentArea P (ui w') = None)
     | Rejected err =>
         contentArea P (ui w')
         = Some (ErrorBox (orElse (message err) fallbackMessage))
         /\ weatherData (ui w') = None /\ sources (ui w') = []
     end.
Proof.
  intros Hreach Hstep.
  destruct (generation_settles_status P w prompt o w' Hreach Hstep)
    as [Hfl [Hq Ho]].
  split; [exact Hfl | split; [exact Hq|]].
  destruct o as [response | err].
  - destruct Ho as [Hs He]. split; [exact Hs | split; [exact He|]].
    now apply contentArea_answer.
  - destruct Ho as [Hs [Ha Hsrc]]. split; [|now split].
    unfold contentArea. now rewrite Hs.
Qed.

Lemma generation_settles_witness :
  let w := after demoPlatform demoSearch in
  exists w',
    dispatch demoPlatform demoCitedAnswer w = Some w'
    /\ contentArea demoPlatform (ui w')
       = Some (Answer [Paragraph (lit "Sunny")]
                 (Some [ {| href := Some (lit "https://a.com"); label := lit "a.com" |};
                         {| href := Some (lit "https://a.com"); label := lit "a.com" |} ])).
Proof.
  cbv zeta.
  pose (response := {| text := Some (lit "Sunny");
                       candidates := Some [ {| groundingMetadata :=
                         Some {| groundingChunks := Some demoChunks |} |} ] |}).
  exists {| ui := fetchWeather_settle (Fulfilled response)
                    (ui (after demoPlatform demoSearch));
            inflight := [] |}.
  split; [vm_compute; reflexivity|].
  destruct (generation_settles demoPlatform (after demoPlatform demoSearch)
              (placePrompt (lit "Paris")) (Fulfilled response)
              {| ui := fetchWeather_settle (Fulfilled response)
                         (ui (after demoPlatform demoSearch));
                 inflight := [] |})
    as [_ [_ [_ [_ [Hrender _]]]]].
  - eapply after_reachable. vm_compute. reflexivity.
  - vm_compute. reflexivity.
  - apply Hrender. vm_compute. reflexivity.
Defined.

(** X15: when the position lookup of a reachable session fails, no
    generation call is made and nothing is left in flight; the loading
    flag is cleared and the content area shows "Unable to retrieve
    location. Please check permissions."; the stored answer, sources and
    query are as they were. *)
Theorem position_failure_settles P w w' :
  reachable P w ->
  dispatch P PositionFailed w = Some w' ->
  inflight w' = []
  /\ status (ui w')
     = Error (lit "Unable to retrieve location. Please check permissions.")
  /\ weatherData (ui w') = weatherData (ui w)
  /\ sources (ui w') = sources (ui w)
  /\ query (ui w') = query (ui w).
Proof.
  intros Hreach. simpl.
  destruct (takeAwait AwaitPosition (inflight w)) as [rest|] eqn:Htake;
    [|discriminate].
  destruct (position_enabled w rest (reachable_coherent P w Hreach) Htake)
    as [_ ->].
  intros [= <-]. now repeat split.
Qed.

Lemma position_failure_settles_witness :
  let w := after demoPlatform (demoSearch ++ [demoAnswer; ClickLocation]) in
  exists w',
    dispatch demoPlatform PositionFailed w = Some w'
    /\ status (ui w')
       = Error (lit "Unable to retrieve location. Please check permissions.")
    /\ weatherData (ui w') = Some (lit "Sunny").
Proof.
  cbv zeta.
  exists (positionError
            {| ui := ui (after demoPlatform (demoSearch ++ [demoAnswer; ClickLocation]));
               inflight := [] |}).
  split; [vm_compute; reflexivity|].
  destruct (position_failure_settles demoPlatform
              (after demoPlatform (demoSearch ++ [demoAnswer; ClickLocation]))
              (positionError
                 {| ui := ui (after demoPlatform (demoSearch ++ [demoAnswer; ClickLocation]));
                    inflight := [] |}))
    as [_ [Hstatus [Hanswer _]]].
  - eapply after_reachable. vm_compute. reflexivity.
  - vm_compute. reflexivity.
  - split; [exact Hstatus|]. rewrite Hanswer. vm_compute. reflexivity.
Defined.

(** X16: when the position lookup of a reachable session succeeds, the
    lookup is over before the generation call starts: the only work in
    flight is that call, with the prompt of the coordinates; the query
    cell holds "Current Location", the content area shows the loading
    branch and answer, sources and error are cleared. *)
Theorem position_success_starts_generation P w latitude longitude w' :
  reachable P w ->
  dispatch P (PositionFound latitude longitude) w = Some w' ->
  inflight w' = [AwaitGeneration (coordsPrompt P latitude longitude)]
  /\ query (ui w') = lit "Current Location"
  /\ status (ui w') = Loading
  /\ weatherData (ui w') = None /\ sources (ui w') = [] /\ error (ui w') = None.
Proof.
  intros Hreach. simpl.
  destruct (takeAwait AwaitPosition (inflight w)) as [rest|] eqn:Htake;
    [|discriminate].
  destruct (position_enabled w rest (reachable_coherent P w Hreach) Htake)
    as [_ ->].
  intros [= <-]. now repeat split.
Qed.

Lemma position_success_starts_generation_witness :
  let w := after demoPlatform [ClickLocation] in
  exists w',
    dispatch demoPlatform (PositionFound 48.5%float (-2.25)%float) w = Some w'
    /\ inflight w'
       = [AwaitGeneration (coordsPrompt demoPlatform 48.5%float (-2.25)%float)]
    /\ query (ui w') = lit "Current Location".
Proof.
  cbv zeta.
  exists (positionSuccess demoPlatform 48.5%float (-2.25)%float
            {| ui := ui (after demoPlatform [ClickLocation]); inflight := [] |}).
  split; [vm_compute; reflexivity|].
  destruct (position_success_starts_generation demoPlatform
              (after demoPlatform [ClickLocation]) 48.5%float (-2.25)%float
              (positionSuccess demoPlatform 48.5%float (-2.25)%float
                 {| ui := ui (after demoPlatform [ClickLocation]); inflight := [] |}))
    as [Hfl [Hq _]].
  - eapply after_reachable. vm_compute. reflexivity.
  - vm_compute. reflexivity.
  - split; [exact Hfl | exact Hq].
Defined.

(** X17: once a current-location query has settled, whatever its outcome,
    submitting the form asks for the weather in "Current Location": the
    position callback overwrote the query cell, and [handleSearch] reads
    it as a place name. *)
Theorem submit_after_location P w latitude longitude o w1 w2 :
  dispatch P (PositionFound latitude longitude) w = Some w1 ->
  dispatch P (GenerationSettled (coordsPrompt P latitude longitude) o) w1 = Some w2 ->
  dispatch P SubmitForm w2
  = Some (callFetchWeather (placePrompt (lit "Current Location")) w2).
Proof.
  simpl.
  destruct (takeAwait AwaitPosition (inflight w)) as [rest|]; [|discriminate].
  intros [= <-]. simpl.
  destruct (takeAwait _ _) as [rest'|]; [|discriminate].
  intros [= <-]. destruct o; reflexivity.
Qed.

Lemma submit_after_location_witness :
  let w2 := after demoPlatform
              [ClickLocation; PositionFound 48.5%float (-2.25)%float;
               GenerationSettled (coordsPrompt demoPlatform 48.5%float (-2.25)%float)
                 (Rejected {| message := None |})] in
  dispatch demoPlatform SubmitForm w2
  = Some (callFetchWeather (placePrompt (lit "Current Location")) w2).
Proof.
  apply (submit_after_location demoPlatform (after demoPlatform [ClickLocation])
           48.5%float (-2.25)%float (Rejected {| message := None |})
           (after demoPlatform [ClickLocation; PositionFound 48.5%float (-2.25)%float])).
  - vm_compute. reflexivity.
  - vm_compute. reflexivity.
Defined.

(** X18: a reachable session never stays loading for want of an event:
    when the loading flag is set, either the position lookup is pending,
    and its failure clears the flag while its success starts the
    generation call, or the generation call is pending, and each of its
    outcomes clears the flag and leaves nothing in flight. *)
Theorem loading_always_ends P w :
  reachable P w -> loading (ui w) = true ->
  ((exists w', dispatch P PositionFailed w = Some w'
               /\ loading (ui w') = false /\ inflight w' = [])
   /\ forall latitude longitude,
        exists w', dispatch P (PositionFound latitude longitude) w = Some w'
                   /\ generating w')
  \/ (exists prompt, forall o,
        exists w', dispatch P (GenerationSettled prompt o) w = Some w'
                   /\ loading (ui w') = false /\ inflight w' = []).
Proof.
  intros Hreach Hl.
  destruct (reachable_coherent P w Hreach)
    as [[_ Hl'] | [[Hfl _] | [prompt [Hfl _]]]]; [congruence | left | right].
  - split.
    + eexists. simpl. rewrite Hfl. simpl. now repeat split.
    + intros latitude longitude. eexists. simpl. rewrite Hfl. simpl.
      split; [reflexivity|]. eexists. simpl. now repeat split.
  - exists prompt. intro o. eexists. simpl. rewrite Hfl. simpl.
    assert (Hrefl : eqb prompt prompt = true) by now apply eqb_eq.
    rewrite Hrefl. now repeat split.
Qed.

Lemma loading_always_ends_witness :
  exists prompt, forall o,
    exists w', dispatch demoPlatform (GenerationSettled prompt o)
                 (after demoPlatform demoSearch) = Some w'
               /\ loading (ui w') = false /\ inflight w' = [].
Proof.
  destruct (loading_always_ends demoPlatform (after demoPlatform demoSearch))
    as [[[w' [Hstep _]] _] | Hgen].
  - eapply after_reachable. vm_compute. reflexivity.
  - vm_compute. reflexivity.
  - vm_compute in Hstep. discriminate Hstep.
  - exact Hgen.
Defined.

(* ================================================================= *)
(** ** More on the sources and on the content area *)

Lemma renderSources_cons P chunk rest :
  renderSources P (chunk :: rest)
  = match renderSource P chunk, renderSources P rest with
    | Some (Some a), Some anchors => Some (a :: anchors)
    | Some None, Some anchors => Some anchors
    | _, _ => None
    end.
Proof.
  simpl. destruct (renderSource P chunk) as [[a|]|]; [| |reflexivity];
    now destruct (renderSources P rest).
Qed.

Lemma renderSources_no_web P chunks :
  websOf chunks = [] -> renderSources P chunks = Some [].
Proof.
  induction chunks as [|chunk rest IH]; [reflexivity|].
  rewrite renderSources_cons. unfold renderSource. simpl.
  destruct (web chunk); [discriminate|]. intro H. now rewrite (IH H).
Qed.

(** X19: rendering the sources throws exactly when some chunk with a
    [web] field has no non-empty title and a URL that the platform's
    parser rejects. *)
Theorem renderSources_None_iff P chunks :
  renderSources P chunks = None
  <-> exists w, In w (websOf chunks)
                /\ truthy (title w) = false /\ URL_hostname P (uri w) = None.
Proof.
  split.
  - induction chunks as [|chunk rest IH]; [discriminate|].
    rewrite renderSources_cons. unfold renderSource, displayTitle. simpl.
    destruct (web chunk) as [w|].
    + destruct (truthy (title w)) eqn:Ht.
      * destruct (title w) as [t|]; [|discriminate Ht].
        destruct (renderSources P rest); [discriminate|].
        intros _. destruct (IH eq_refl) as [w' [Hin Hw']].
        exists w'. split; [now right | exact Hw'].
      * destruct (URL_hostname P (uri w)) eqn:Hh.
        -- destruct (renderSources P rest); [discriminate|].
           intros _. destruct (IH eq_refl) as [w' [Hin Hw']].
           exists w'. split; [now right | exact Hw'].
        -- intros _. exists w. split; [now left | now split].
    + destruct (renderSources P rest); [discriminate|].
      intros _. destruct (IH eq_refl) as [w' [Hin Hw']]. now exists w'.
  - intros [w [Hin [Ht Hh]]]. now apply renderSources_throws with w.
Qed.

(** X20: when every chunk with a [web] field has a non-empty title, the
    sources render on every platform alike, without a question to the URL
    parser: one anchor for each such chunk, in order, with the chunk's URL
    and title. *)
Theorem renderSources_titles_only P chunks :
  (forall w, In w (websOf chunks) -> truthy (title w) = true) ->
  exists anchors,
    (forall P', renderSources P' chunks = Some anchors)
    /\ renderSources P chunks = Some anchors
    /\ List.map href anchors = List.map uri (websOf chunks)
    /\ List.map (fun a => Some (label a)) anchors = List.map title (websOf chunks).
Proof.
  induction chunks as [|chunk rest IH]; intro Htitles.
  - exists []. now repeat split.
  - simpl in Htitles. destruct (web chunk) as [w|] eqn:Hweb.
    + destruct IH as [anchors [Hall [Hone [Hhref Hlabel]]]].
      { intros w' Hin. apply Htitles. now right. }
      pose proof (Htitles w (or_introl eq_refl)) as Ht.
      destruct (title w) as [t|] eqn:Htitle; [|discriminate Ht].
      exists ({| href := uri w; label := t |} :: anchors).
      assert (Hany : forall P', renderSources P' (chunk :: rest)
                                = Some ({| href := uri w; label := t |} :: anchors)).
      { intro P'. rewrite renderSources_cons. unfold renderSource, displayTitle.
        now rewrite Hweb, Htitle, Ht, Hall. }
      split; [exact Hany | split; [apply Hany|]].
      simpl. rewrite Hweb. simpl. now rewrite Hhref, Hlabel, Htitle.
    + destruct (IH Htitles) as [anchors [Hall [Hone [Hhref Hlabel]]]].
      exists anchors.
      assert (Hany : forall P', renderSources P' (chunk :: rest) = Some anchors).
      { intro P'. rewrite renderSources_cons. unfold renderSource.
        now rewrite Hweb, Hall. }
      split; [exact Hany | split; [apply Hany|]].
      simpl. now rewrite Hweb.
Qed.

Lemma renderSources_titles_only_witness :
  let chunks := [ {| web := Some {| uri := Some (lit "not a url");
                                    title := Some (lit "Met Office") |} |} ] in
  exists anchors,
    renderSources demoPlatform chunks = Some anchors
    /\ List.map (fun a => Some (label a)) anchors = [Some (lit "Met Office")].
Proof.
  cbv zeta.
  destruct (renderSources_titles_only demoPlatform
              [ {| web := Some {| uri := Some (lit "not a url");
                                  title := Some (lit "Met Office") |} |} ])
    as [anchors [_ [Hone [_ Hlabel]]]].
  - simpl. intros w [<- | []]. reflexivity.
  - exists anchors. split; [exact Hone | exact Hlabel].
Defined.

(** X21: the sources of two lists put end to end are the sources of the
    first followed by those of the second, duplicates included; the whole
    throws as soon as one part does. *)
Theorem renderSources_app P a b :
  renderSources P (a ++ b)
  = match renderSources P a, renderSources P b with
    | Some xs, Some ys => Some (xs ++ ys)
    | _, _ => None
    end.
Proof.
  induction a as [|chunk rest IH].
  - simpl. now destruct (renderSources P b).
  - simpl app. rewrite !renderSources_cons, IH.
    destruct (renderSource P chunk) as [[x|]|]; [| |reflexivity];
      destruct (renderSources P rest); try reflexivity;
      now destruct (renderSources P b).
Qed.

(** X22: rendering the content area throws only in the answer branch, and
    there exactly when rendering the stored sources throws; the spinner,
    the error box and the placeholder render whatever is stored. *)
Theorem contentArea_None_iff P s :
  contentArea P s = None
  <-> exists answer chunks,
        status s = Success answer chunks /\ renderSources P chunks = None.
Proof.
  unfold contentArea. split.
  - destruct (status s) as [|msg|answer chunks|]; try discriminate.
    destruct chunks as [|chunk rest]; [discriminate|].
    destruct (renderSources P (chunk :: rest)) eqn:Hr; [discriminate|].
    intros _. now exists answer, (chunk :: rest).
  - intros [answer [chunks [-> Hr]]].
    destruct chunks as [|chunk rest]; [discriminate Hr|]. now rewrite Hr.
Qed.

(** X23: in the answer branch the "Sources" section is rendered whenever
    the stored list is not empty, also when none of its chunks has a
    [web] field: the section then has no link. *)
Theorem contentArea_sources_section P s answer chunks :
  status s = Success answer chunks ->
  (chunks = [] -> contentArea P s = Some (Answer (renderMarkdown answer) None))
  /\ (chunks <> [] -> websOf chunks = [] ->
      contentArea P s = Some (Answer (renderMarkdown answer) (Some []))).
Proof.
  intro Hs. unfold contentArea. rewrite Hs. split.
  - now intros ->.
  - intros Hne Hweb. destruct chunks as [|chunk rest]; [congruence|].
    now rewrite (renderSources_no_web P _ Hweb).
Qed.

Lemma contentArea_sources_section_witness :
  let s := fetchWeather
             (Fulfilled {| text := Some (lit "Sunny");
                           candidates := Some [ {| groundingMetadata :=
                             Some {| groundingChunks := Some [ {| web := None |} ] |} |} ] |})
             initialState in
  contentArea demoPlatform s = Some (Answer [Paragraph (lit "Sunny")] (Some [])).
Proof.
  cbv zeta.
  refine (proj2 (contentArea_sources_section demoPlatform _ (lit "Sunny")
                   [ {| web := None |} ] _) _ _).
  - vm_compute. reflexivity.
  - discriminate.
  - reflexivity.
Defined.

(** X24: a successful response with no text, or an empty one, and no
    citation is rendered, whatever was stored before the call, as the one
    paragraph "No weather data found." without a "Sources" section. *)
Theorem empty_answer_rendered P response s :
  truthy (text response) = false -> chunksOf response = [] ->
  contentArea P (fetchWeather (Fulfilled response) s)
  = Some (Answer [Paragraph placeholderText] None).
Proof.
  intros Htext Hchunks. unfold contentArea, status. simpl.
  rewrite Hchunks.
  assert (Hplace : orElse (text response) placeholderText = placeholderText).
  { destruct (text response) as [[|c r]|]; [reflexivity | discriminate Htext | reflexivity]. }
  rewrite Hplace. reflexivity.
Qed.

Lemma empty_answer_rendered_witness :
  contentArea demoPlatform
    (fetchWeather (Fulfilled {| text := Some []; candidates := Some [] |})
       (ui (after demoPlatform (demoSearch ++ [demoFailure]))))
  = Some (Answer [Paragraph (lit "No weather data found.")] None).
Proof.
  apply (empty_answer_rendered demoPlatform
           {| text := Some []; candidates := Some [] |}); reflexivity.
Defined.
